(** * backend/main.py: chat orchestration and similarity matching

    A shallow embedding of the FastAPI service in [backend/main.py].

    The service keeps one process-wide vector collection ([collection],
    created empty at start-up) and talks to two remote providers: the
    embedding provider (called by the collection whenever it has to embed a
    text) and the chat-completion provider.  Both providers are opaque:
    here they are an environment that answers each call, or makes it
    raise.  Handlers are written in a small state-and-exception monad over
    a [World]: the collection together with the log of provider calls
    issued so far.

    Requests are handled one after another; interleaving of handlers at
    their suspension points is not modelled. *)

From Stdlib Require Import List String Ascii Arith Lia Bool.
From Stdlib Require Import DecimalString DecimalNat Permutation Sorted.
Import ListNotations.
Local Open Scope string_scope.
Local Open Scope list_scope.

(** ** Python built-ins the source relies on *)

Module Py.

(** [str(n)] for a non-negative integer, as interpolated by an f-string. *)
Definition str_of_int (n : nat) : string :=
  NilEmpty.string_of_uint (Nat.to_uint n).

(** [sep.join(l)] *)
Definition join (sep : string) (l : list string) : string :=
  String.concat sep l.

(** [c in s] for a one-character string [c]. *)
Fixpoint occurs (c : ascii) (s : string) : bool :=
  match s with
  | EmptyString => false
  | String c' s' => Ascii.eqb c c' || occurs c s'
  end.

(** What the code needs of [<] on floats for "smallest" to make sense:
    a strict weak order, as [<] is on floats that are not NaN. *)
Record StrictWeakOrder {K : Type} (lt : K -> K -> bool) : Prop := {
  lt_irrefl : forall a, lt a a = false;
  lt_trans : forall a b c, lt a b = true -> lt b c = true -> lt a c = true;
  lt_cotrans : forall a b c, lt a c = true -> lt a b = true \/ lt b c = true
}.

Section Sorted.
Context {A K : Type}.
Variable lt : K -> K -> bool.
Variable key : A -> K.

(** [x] is put in front of the first element whose key is not smaller
    than its own, so elements with equal keys keep their order. *)
Fixpoint insert (x : A) (l : list A) : list A :=
  match l with
  | [] => [x]
  | y :: l' => if lt (key y) (key x) then y :: insert x l' else x :: l
  end.

(** [sorted(l, key=key)]: a stable sort using only [<] on the keys.
    Where [<] is a strict weak order on the keys a stable sort has one
    possible result, so this is the list Python returns; statements about
    the order of the result assume [StrictWeakOrder]. *)
Definition sorted (l : list A) : list A := fold_right insert [] l.

(** [a] may stand before [b] in a list that ascends by key. *)
Definition ascending (a b : A) : Prop := lt (key b) (key a) = false.
End Sorted.

(** A [dict] with [str] keys.  Iteration follows insertion order, and
    assigning to a key that is present keeps its position. *)
Section Dict.
Context {V : Type}.

Definition dict : Type := list (string * V).

Fixpoint dict_get (k : string) (d : dict) : option V :=
  match d with
  | [] => None
  | (k', v) :: d' => if String.eqb k k' then Some v else dict_get k d'
  end.

Fixpoint dict_set (k : string) (v : V) (d : dict) : dict :=
  match d with
  | [] => [(k, v)]
  | (k', v') :: d' =>
      if String.eqb k k' then (k', v) :: d' else (k', v') :: dict_set k v d'
  end.

Definition items (d : dict) : list (string * V) := d.
End Dict.
Arguments dict : clear implicits.

End Py.

(** ** Data *)

(** One turn of the conversation sent to the completion endpoint: the
    source builds [{'role': ..., 'content': ...}]. *)
Record Turn : Type := mkTurn { role : string; content : string }.

Definition MODEL_PROMPT : string := "
You are a relationship coach. 
Ask me deep situation and interest-based questions to evaluate my personality so that I can be matched to others in the future and make me tell it with an example or story.
As I answer, use my previous answers to ask more meaningful and deep questions, provoking a thoughtful response from me.
Ask questions that make me reveal what my values are.
".

(** The request body of [POST /chat]. *)
Record ChatRequest : Type := mkChatRequest { user_id : string; message : string }.

(** The JSON objects the handlers return, one constructor per shape. *)
Inductive Response : Type :=
| MessageReply (message : string)
| MostSimilarReply (most_similar_user : string)
| ChatReply (user_id user_message llm_response : string)
| UserMessagesReply (user_id : string) (messages : list string).

(** The metadata filters the source passes as [where=]. *)
Inductive Where : Type :=
| WhereEq (user_id : string)     (* {"user_id": u} *)
| WhereNe (user_id : string).    (* {"user_id": {"$ne": u}} *)

(** A call to a remote provider. *)
Inductive Call : Type :=
| CallEmbed (text : string)
| CallComplete (messages : list Turn).

Inductive Error : Type :=
| EmbeddingError
| CompletionError.

Inductive Outcome (A : Type) : Type :=
| Done (a : A)
| Raised (e : Error).
Arguments Done {A} a.
Arguments Raised {A} e.

Section Service.

(** Embeddings are vectors of floats and distances are floats; the code
    only ever compares distances with [<], so both stay abstract. *)
Variable Embedding : Type.
Variable Dist : Type.
Variable distance_between : Embedding -> Embedding -> Dist.
Variable lt : Dist -> Dist -> bool.

(** A stored message: what [collection.add] is given, plus the embedding
    the collection computed for the document. *)
Record Stored : Type := mkStored {
  stored_id : string;
  stored_document : string;
  stored_user_id : string;
  stored_embedding : Embedding
}.

(** One match of a similarity query. *)
Record Hit : Type := mkHit {
  hit_document : string;
  hit_user_id : string;
  hit_distance : Dist
}.

Record World : Type := mkWorld {
  collection : list Stored;
  calls : list Call
}.

(** The providers.  The first argument is the number of provider calls
    issued before this one, so a provider may answer the same input
    differently at different times; [None] is a call that raises. *)
Record Env : Type := mkEnv {
  embed_reply : nat -> string -> option Embedding;
  complete_reply : nat -> list Turn -> option string
}.

Variable env : Env.

(** *** The handler monad *)

Definition M (A : Type) : Type := World -> Outcome A * World.

Definition ret {A} (a : A) : M A := fun w => (Done a, w).

Definition bind {A B} (m : M A) (k : A -> M B) : M B :=
  fun w =>
    match m w with
    | (Done a, w') => k a w'
    | (Raised e, w') => (Raised e, w')
    end.

Notation "x <- m ;; k" := (bind m (fun x => k))
  (at level 61, m at next level, right associativity).
Notation "m ;; k" := (bind m (fun _ => k))
  (at level 61, right associativity).

Definition get_collection : M (list Stored) :=
  fun w => (Done (collection w), w).

Definition put_collection (c : list Stored) : M unit :=
  fun w => (Done tt, mkWorld c (calls w)).

Definition log (c : Call) (w : World) : World :=
  mkWorld (collection w) (calls w ++ [c]).

(** [cohere_ef([text])[0]]: [CohereEmbeddingFunction.__call__] on the
    one-element lists the collection passes for this program. *)
Definition cohere_ef (text : string) : M Embedding :=
  fun w =>
    match embed_reply env (List.length (calls w)) text with
    | Some e => (Done e, log (CallEmbed text) w)
    | None => (Raised EmbeddingError, log (CallEmbed text) w)
    end.

(** [(await client.chat.completions.create(messages=..., model=...))
     .choices[0].message.content] *)
Definition completions_create (messages : list Turn) : M string :=
  fun w =>
    match complete_reply env (List.length (calls w)) messages with
    | Some a => (Done a, log (CallComplete messages) w)
    | None => (Raised CompletionError, log (CallComplete messages) w)
    end.

(** *** The collection *)

Definition matches (wh : Where) (m : Stored) : bool :=
  match wh with
  | WhereEq u => String.eqb (stored_user_id m) u
  | WhereNe u => negb (String.eqb (stored_user_id m) u)
  end.

(** Modelled from the spec: the vector index behind [collection] is a
    third-party library; this is the Message Store contract.
    [collection.get(where=wh)]: every stored message that passes the
    filter.  No provider is called.  The contract leaves the order of the
    result open; the model lists the messages as they were added, and
    what is stated of the messages a handler returns is stated up to
    their order. *)
Definition collection_get (wh : Where) : M (list Stored) :=
  c <- get_collection ;;
  ret (filter (matches wh) c).

Definition hit_of (probe : Embedding) (m : Stored) : Hit :=
  mkHit (stored_document m) (stored_user_id m)
        (distance_between probe (stored_embedding m)).

(** Modelled from the spec: the Message Store contract for
    [collection.query(query_texts=[text], n_results=n, where=wh)]: the
    probe is embedded, and the (at most [n]) nearest stored messages that
    pass the filter come back in ascending order of distance. *)
Definition collection_query (text : string) (n : nat) (wh : Where)
  : M (list Hit) :=
  probe <- cohere_ef text ;;
  c <- get_collection ;;
  ret (firstn n (Py.sorted lt hit_distance
                   (map (hit_of probe) (filter (matches wh) c)))).

(** [collection.count()] *)
Definition collection_count : M nat :=
  c <- get_collection ;;
  ret (List.length c).

Definition has_id (id : string) (c : list Stored) : bool :=
  existsb (fun m => String.eqb (stored_id m) id) c.

(** Modelled from the spec: the Message Store contract for
    [collection.add(documents=[document], ids=[id],
    metadatas=[{"user_id": uid}])]: the document is embedded and the
    message stored.  The index keeps one record per id: an id that is
    already present is not added again. *)
Definition collection_add (document id uid : string) : M unit :=
  e <- cohere_ef document ;;
  c <- get_collection ;;
  if has_id id c then ret tt
  else put_collection (c ++ [mkStored id document uid e]).

(** *** [chat] *)

Definition user_turn (text : string) : Turn := mkTurn "user" text.

Definition build_messages (previous_messages : list string)
           (user_message : string) : list Turn :=
  (mkTurn "system" MODEL_PROMPT :: map user_turn previous_messages)
    ++ [user_turn user_message].

Definition chat (user_id user_message : string) : M string :=
  results <- collection_query user_message 10 (WhereEq user_id) ;;
  let previous_messages := map hit_document results in
  let messages := build_messages previous_messages user_message in
  assistant_message <- completions_create messages ;;
  ret assistant_message.

(** *** Endpoints *)

Definition read_root : M Response :=
  ret (MessageReply "Hello, FastAPI!!!!").

(** The loop body of [get_most_similar]: keep the smallest distance seen
    for each user. *)
Definition keep_best (similar_users : Py.dict Dist) (h : Hit)
  : Py.dict Dist :=
  let similar_user_id := hit_user_id h in
  let distance := hit_distance h in
  match Py.dict_get similar_user_id similar_users with
  | None => Py.dict_set similar_user_id distance similar_users
  | Some best =>
      if lt distance best
      then Py.dict_set similar_user_id distance similar_users
      else similar_users
  end.

Definition aggregate (results : list Hit) : Py.dict Dist :=
  fold_left keep_best results [].

Definition combined_query (user_messages : list Stored) : string :=
  Py.join " " (map stored_document user_messages).

(** The body of [get_most_similar], with [collection.query] left open:
    [query] stands for whatever the index answers, in whatever order. *)
Definition get_most_similar_over
           (query : string -> nat -> Where -> M (list Hit))
           (user_id : string) : M Response :=
  user_messages <- collection_get (WhereEq user_id) ;;
  match user_messages with
  | [] => ret (MessageReply "No messages found for this user")
  | _ :: _ =>
      results <- query (combined_query user_messages) 50
                       (WhereNe user_id) ;;
      let similar_users := aggregate results in
      let sorted_similar_users :=
        Py.sorted lt snd (Py.items similar_users) in
      match sorted_similar_users with
      | (most_similar_user, _) :: _ =>
          ret (MostSimilarReply most_similar_user)
      | [] => ret (MessageReply "No similar users found")
      end
  end.

(** [get_most_similar], querying the collection of this service. *)
Definition get_most_similar (user_id : string) : M Response :=
  get_most_similar_over collection_query user_id.

Definition message_id (user_id : string) (count : nat) : string :=
  "user_message_" ++ user_id ++ "_" ++ Py.str_of_int count.

Definition process_chat (chat_request : ChatRequest) : M Response :=
  let uid := user_id chat_request in
  let user_message := message chat_request in
  llm_response <- chat uid user_message ;;
  count <- collection_count ;;
  collection_add user_message (message_id uid count) uid ;;
  ret (ChatReply uid user_message llm_response).

Definition get_user_messages (user_id : string) : M Response :=
  user_messages <- collection_get (WhereEq user_id) ;;
  ret (UserMessagesReply user_id (map stored_document user_messages)).

(** *** Serving requests one after another *)

Inductive Request : Type :=
| GetRoot
| PostChat (body : ChatRequest)
| GetMostSimilar (user_id : string)
| GetUserMessages (user_id : string).

Definition handle (r : Request) : M Response :=
  match r with
  | GetRoot => read_root
  | PostChat body => process_chat body
  | GetMostSimilar u => get_most_similar u
  | GetUserMessages u => get_user_messages u
  end.

(** The world after a request, whether it answered or raised. *)
Definition after (r : Request) (w : World) : World := snd (handle r w).

Definition serve (rs : list Request) (w : World) : World :=
  fold_left (fun w r => after r w) rs w.

(** [chroma_client.create_collection(name="memory", ...)] on a fresh
    in-memory client. *)
Definition startup : World := mkWorld [] [].

End Service.

Arguments Stored Embedding : assert.
Arguments mkStored {Embedding} _ _ _ _.
Arguments stored_id {Embedding} _.
Arguments stored_document {Embedding} _.
Arguments stored_user_id {Embedding} _.
Arguments stored_embedding {Embedding} _.
Arguments mkHit {Dist} _ _ _.
Arguments hit_document {Dist} _.
Arguments hit_user_id {Dist} _.
Arguments hit_distance {Dist} _.
Arguments mkWorld {Embedding} _ _.
Arguments collection {Embedding} _.
Arguments calls {Embedding} _.
Arguments mkEnv {Embedding} _ _.
Arguments embed_reply {Embedding} _ _ _.
Arguments complete_reply {Embedding} _ _ _.
Arguments ret {Embedding A} _ _.
Arguments bind {Embedding A B} _ _ _.
Arguments log {Embedding} _ _.
Arguments cohere_ef {Embedding} _ _ _.
Arguments completions_create {Embedding} _ _ _.
Arguments matches {Embedding} _ _.
Arguments collection_get {Embedding} _ _.
Arguments hit_of {Embedding Dist} _ _ _.
Arguments collection_query {Embedding Dist} _ _ _ _ _ _ _.
Arguments collection_count {Embedding} _.
Arguments has_id {Embedding} _ _.
Arguments collection_add {Embedding} _ _ _ _ _.
Arguments chat {Embedding Dist} _ _ _ _ _ _.
Arguments read_root {Embedding} _.
Arguments keep_best {Dist} _ _ _.
Arguments aggregate {Dist} _ _.
Arguments combined_query {Embedding} _.
Arguments get_most_similar_over {Embedding Dist} _ _ _ _.
Arguments get_most_similar {Embedding Dist} _ _ _ _ _.
Arguments process_chat {Embedding Dist} _ _ _ _ _.
Arguments get_user_messages {Embedding} _ _.
Arguments handle {Embedding Dist} _ _ _ _ _.
Arguments after {Embedding Dist} _ _ _ _ _.
Arguments serve {Embedding Dist} _ _ _ _ _.
Arguments startup {Embedding}.

(** ** Specification vocabulary *)

(** [m] is a smallest distance at which user [u] appears in [results]. *)
Definition min_distance {Dist} (lt : Dist -> Dist -> bool)
           (results : list (Hit Dist)) (u : string) (m : Dist) : Prop :=
  (exists h, In h results /\ hit_user_id h = u /\ hit_distance h = m) /\
  (forall h, In h results -> hit_user_id h = u -> lt (hit_distance h) m = false).

(** Every stored message carries the id minted from its owner and from
    its position, which is the collection's size when it was added. *)
Definition ids_by_position {Embedding} (c : list (Stored Embedding)) : Prop :=
  forall i m, nth_error c i = Some m ->
              stored_id m = message_id (stored_user_id m) i.

(** The requests that can add a message. *)
Definition is_post_chat (r : Request) : bool :=
  match r with
  | PostChat _ => true
  | _ => false
  end.

(** ** A concrete instance

    One-dimensional embeddings: a text is embedded as its length and the
    distance is the absolute difference. *)

Module Scenario.

Definition distance_between (a b : nat) : nat := (a - b) + (b - a).

Definition embed (_ : nat) (text : string) : option nat :=
  Some (String.length text).

(** Both providers answer. *)
Definition env_up : Env nat :=
  mkEnv embed (fun _ _ => Some "Tell me more.").

(** The completion endpoint raises. *)
Definition env_llm_down : Env nat :=
  mkEnv embed (fun _ _ => None).

(** The embedding provider raises. *)
Definition env_embed_down : Env nat :=
  mkEnv (fun _ _ => None) (fun _ _ => Some "Tell me more.").

Definition run (rs : list Request) : World nat :=
  serve distance_between Nat.ltb env_up rs startup.

(** alice, then bob, then alice again. *)
Definition three_chats : World nat :=
  run [PostChat (mkChatRequest "alice" "hello");
       PostChat (mkChatRequest "bob" "hi there");
       PostChat (mkChatRequest "alice" "hey")].

(** alice alone. *)
Definition alice_only : World nat :=
  run [PostChat (mkChatRequest "alice" "hello")].

(** An index that answers every query with the same four matches, not
    in order of distance: bob at 3, carol at 2, bob at 1, bob at 5. *)
Definition four_matches : list (Hit nat) :=
  [mkHit "b1" "bob" 3; mkHit "c1" "carol" 2;
   mkHit "b2" "bob" 1; mkHit "b3" "bob" 5].

Definition unordered_index (_ : string) (_ : nat) (_ : Where)
  : M nat (list (Hit nat)) :=
  fun w => (Done four_matches, w).

(** bob and carol are equally far from alice; bob wrote first. *)
Definition tie_chats : World nat :=
  run [PostChat (mkChatRequest "alice" "hello");
       PostChat (mkChatRequest "bob" "abc");
       PostChat (mkChatRequest "carol" "abcdefg")].

End Scenario.

(** ** Facts about the Python built-ins *)

Module PyFacts.
Import Py.

(** *** Strings *)

Lemma occurs_app c a b :
  occurs c (a ++ b)%string = occurs c a || occurs c b.
Proof.
  induction a as [|x a IH]; simpl; [reflexivity|].
  now rewrite IH, orb_assoc.
Qed.

Lemma digits_only d : occurs "_" (NilEmpty.string_of_uint d) = false.
Proof. induction d; simpl; auto. Qed.

Lemma str_of_int_no_underscore n : occurs "_" (str_of_int n) = false.
Proof. apply digits_only. Qed.

Lemma str_of_int_inj n n' : str_of_int n = str_of_int n' -> n = n'.
Proof.
  unfold str_of_int. intros E.
  apply Unsigned.to_uint_inj.
  assert (H : Some (Nat.to_uint n) = Some (Nat.to_uint n'))
    by now rewrite <- !NilEmpty.usu, E.
  now injection H.
Qed.

(** A string is cut in one way only at its last underscore. *)
Lemma cut_at_last_underscore a :
  forall b x y,
    occurs "_" x = false -> occurs "_" y = false ->
    (a ++ "_" ++ x = b ++ "_" ++ y)%string -> a = b /\ x = y.
Proof.
  induction a as [|c a IH]; intros [|c' b] x y Hx Hy E; simpl in E.
  - injection E as E. now split.
  - injection E as Ec Ex. subst x.
    rewrite occurs_app in Hx. simpl in Hx.
    now rewrite orb_true_r in Hx.
  - injection E as Ec Ey. subst y.
    rewrite occurs_app in Hy. simpl in Hy.
    now rewrite orb_true_r in Hy.
  - injection E as Ec E. subst c'.
    destruct (IH b x y Hx Hy E) as [-> ->]. now split.
Qed.

(** *** [sorted] *)

Section SortedFacts.
Context {A K : Type}.
Variable lt : K -> K -> bool.
Variable key : A -> K.

Local Abbreviation ascending := (ascending lt key).

Lemma insert_perm x l : Permutation (x :: l) (insert lt key x l).
Proof.
  induction l as [|y l IH]; simpl; [reflexivity|].
  destruct (lt (key y) (key x)); [|reflexivity].
  rewrite perm_swap. now constructor.
Qed.

Lemma sorted_perm l : Permutation l (sorted lt key l).
Proof.
  induction l as [|x l IH]; simpl; [constructor|].
  rewrite <- insert_perm. now constructor.
Qed.

Lemma sorted_In x l : In x (sorted lt key l) <-> In x l.
Proof.
  split; apply Permutation_in;
    [symmetry|]; apply sorted_perm.
Qed.

Lemma sorted_nil l : sorted lt key l = [] -> l = [].
Proof.
  intros E. apply Permutation_nil. rewrite <- E. apply Permutation_sym, sorted_perm.
Qed.

Lemma sorted_length l : List.length (sorted lt key l) = List.length l.
Proof. symmetry. apply Permutation_length, sorted_perm. Qed.

(** Stability at the front: whatever stood before the first element of
    [sorted l] in [l] has a strictly larger key. *)
Lemma sorted_head_first l :
  forall h t,
    sorted lt key l = h :: t ->
    exists l1 l2, l = l1 ++ h :: l2 /\
                  forall y, In y l1 -> lt (key h) (key y) = true.
Proof.
  induction l as [|x l IH]; intros h t E; [discriminate|].
  change (sorted lt key (x :: l)) with (insert lt key x (sorted lt key l)) in E.
  destruct (sorted lt key l) as [|h' t'] eqn:S; simpl in E.
  - injection E as <- <-. apply sorted_nil in S. subst l.
    exists [], []. split; [reflexivity|]. intros y [].
  - destruct (lt (key h') (key x)) eqn:L; injection E as <- <-.
    + destruct (IH h' t' eq_refl) as (l1 & l2 & -> & H).
      exists (x :: l1), l2. split; [reflexivity|].
      intros y [<-|I]; auto.
    + exists [], l. split; [reflexivity|]. intros y [].
Qed.

Lemma StronglySorted_firstn (R : A -> A -> Prop) n :
  forall l, StronglySorted R l -> StronglySorted R (firstn n l).
Proof.
  induction n as [|n IH]; intros l S; [constructor|].
  destruct S as [|x l S H]; simpl; [constructor|].
  constructor; [now apply IH|].
  rewrite Forall_forall in *. intros y I. apply H.
  rewrite <- (firstn_skipn n l). apply in_or_app. now left.
Qed.

Hypothesis order : StrictWeakOrder lt.

Lemma lt_asym a b : lt a b = true -> lt b a = false.
Proof.
  intros H. destruct (lt b a) eqn:E; [|reflexivity].
  now rewrite <- (lt_irrefl lt order a), <- (lt_trans lt order a b a H E).
Qed.

Lemma ascending_trans a b c :
  ascending a b -> ascending b c -> ascending a c.
Proof.
  unfold ascending. intros Hab Hbc.
  destruct (lt (key c) (key a)) eqn:E; [|reflexivity].
  destruct (lt_cotrans lt order _ (key b) _ E); congruence.
Qed.

Lemma insert_sorted x l :
  StronglySorted ascending l -> StronglySorted ascending (insert lt key x l).
Proof.
  induction 1 as [|y l Hl IH Hy]; simpl.
  - repeat constructor.
  - destruct (lt (key y) (key x)) eqn:E.
    + constructor; [assumption|].
      rewrite Forall_forall in *. intros z Hz.
      apply (Permutation_in _ (Permutation_sym (insert_perm x l))) in Hz.
      destruct Hz as [<-|Hz]; [|now apply Hy].
      now apply lt_asym.
    + constructor; [now constructor|].
      constructor; [exact E|].
      rewrite Forall_forall in *. intros z Hz.
      apply ascending_trans with y; [exact E|now apply Hy].
Qed.

Lemma sorted_ascending l : StronglySorted ascending (sorted lt key l).
Proof.
  induction l; simpl; [constructor|now apply insert_sorted].
Qed.

(** The first element of [sorted l] has a smallest key of [l]. *)
Lemma sorted_head_min l h t :
  sorted lt key l = h :: t -> forall x, In x l -> ascending h x.
Proof.
  intros E x Hx.
  pose proof (sorted_ascending l) as S. rewrite E in S.
  apply sorted_In in Hx. rewrite E in Hx.
  inversion S as [|? ? _ Hall]; subst.
  destruct Hx as [<-|Hx].
  - apply (lt_irrefl lt order).
  - rewrite Forall_forall in Hall. now apply Hall.
Qed.
End SortedFacts.

(** *** [dict] *)

Section DictFacts.
Context {V : Type}.
Implicit Types (d : dict V) (k : string) (v : V).

Lemma dict_get_set_same k v d : dict_get k (dict_set k v d) = Some v.
Proof.
  induction d as [|[k' v'] d IH]; simpl.
  - now rewrite String.eqb_refl.
  - destruct (String.eqb k k') eqn:E; simpl; now rewrite E.
Qed.

Lemma dict_get_set_other k k' v d :
  k' <> k -> dict_get k' (dict_set k v d) = dict_get k' d.
Proof.
  intros N. induction d as [|[k0 v0] d IH]; simpl.
  - now apply String.eqb_neq in N as ->.
  - destruct (String.eqb_spec k k0) as [->|]; simpl; [|now rewrite IH].
    now apply String.eqb_neq in N as ->.
Qed.

Lemma dict_get_In k v d : dict_get k d = Some v -> In (k, v) d.
Proof.
  induction d as [|[k' v'] d IH]; simpl; [discriminate|].
  destruct (String.eqb_spec k k') as [->|].
  - intros [= ->]. now left.
  - intros H. right. now apply IH.
Qed.

Lemma dict_get_None k d : dict_get k d = None <-> ~ In k (map fst d).
Proof.
  induction d as [|[k' v'] d IH]; simpl; [tauto|].
  destruct (String.eqb_spec k k') as [->|N].
  - split; [discriminate|]. intros H. exfalso. auto.
  - rewrite IH. split; [intros H [E|I]|]; auto; tauto.
Qed.

Lemma In_dict_get k v d :
  NoDup (map fst d) -> In (k, v) d -> dict_get k d = Some v.
Proof.
  induction d as [|[k' v'] d IH]; simpl; [tauto|].
  intros ND [E|I]; inversion ND as [|? ? Hk ND']; subst.
  - injection E as -> ->. now rewrite String.eqb_refl.
  - destruct (String.eqb_spec k k') as [->|]; [|now apply IH].
    exfalso. apply Hk. now apply (in_map fst) in I.
Qed.

(** Assignment appends a new key and leaves the keys alone otherwise. *)
Lemma dict_set_keys k v d :
  map fst (dict_set k v d) =
  match dict_get k d with
  | Some _ => map fst d
  | None => map fst d ++ [k]
  end.
Proof.
  induction d as [|[k' v'] d IH]; simpl; [reflexivity|].
  destruct (String.eqb k k'); simpl; [reflexivity|].
  rewrite IH. now destruct (dict_get k d).
Qed.

Lemma dict_set_nodup k v d :
  NoDup (map fst d) -> NoDup (map fst (dict_set k v d)).
Proof.
  intros ND. rewrite dict_set_keys.
  destruct (dict_get k d) eqn:E; [assumption|].
  apply dict_get_None in E.
  apply NoDup_rev in ND. rewrite <- (rev_involutive (_ ++ _)).
  apply NoDup_rev. rewrite rev_app_distr. simpl.
  constructor; [now rewrite <- in_rev|assumption].
Qed.
End DictFacts.

End PyFacts.

(** ** Properties of the service *)

Section Properties.
Import Py PyFacts.

Context {Embedding Dist : Type}.
Variable distance_between : Embedding -> Embedding -> Dist.
Variable lt : Dist -> Dist -> bool.
Variable env : Env Embedding.

Implicit Types (w : World Embedding) (c : list (Stored Embedding)).
Implicit Types (results : list (Hit Dist)) (h : Hit Dist).

Local Abbreviation query := (collection_query distance_between lt env).
Local Abbreviation own uid w :=
  (filter (matches (WhereEq uid)) (collection w)).

(** *** Running the monad *)

Lemma bind_done {A B} (m : World Embedding -> Outcome A * World Embedding)
      (k : A -> World Embedding -> Outcome B * World Embedding) w a w' :
  m w = (Done a, w') -> bind m k w = k a w'.
Proof. unfold bind. now intros ->. Qed.

Lemma bind_raised {A B} (m : World Embedding -> Outcome A * World Embedding)
      (k : A -> World Embedding -> Outcome B * World Embedding) w e w' :
  m w = (Raised e, w') -> bind m k w = (Raised e, w').
Proof. unfold bind. now intros ->. Qed.

Lemma collection_get_run wh w :
  collection_get wh w = (Done (filter (matches wh) (collection w)), w).
Proof. reflexivity. Qed.

Lemma collection_count_run w :
  collection_count w = (Done (List.length (collection w)), w).
Proof. reflexivity. Qed.

Lemma cohere_ef_calls text w :
  calls (snd (cohere_ef env text w)) = calls w ++ [CallEmbed text].
Proof. unfold cohere_ef. now destruct embed_reply. Qed.

Lemma cohere_ef_collection text w :
  collection (snd (cohere_ef env text w)) = collection w.
Proof. unfold cohere_ef. now destruct embed_reply. Qed.

Lemma collection_query_run text n wh w :
  query text n wh w =
  match embed_reply env (List.length (calls w)) text with
  | Some probe =>
      (Done (firstn n (sorted lt hit_distance
                         (map (hit_of distance_between probe)
                              (filter (matches wh) (collection w))))),
       log (CallEmbed text) w)
  | None => (Raised EmbeddingError, log (CallEmbed text) w)
  end.
Proof.
  unfold collection_query, bind, cohere_ef.
  now destruct embed_reply.
Qed.

Lemma collection_query_world text n wh w :
  snd (query text n wh w) = log (CallEmbed text) w.
Proof. rewrite collection_query_run. now destruct embed_reply. Qed.

Lemma firstn_incl {A} n (l : list A) x : In x (firstn n l) -> In x l.
Proof.
  intros H. rewrite <- (firstn_skipn n l). apply in_or_app. now left.
Qed.

(** Every match of a query comes from a stored message that passes the
    filter. *)
Lemma collection_query_hits text n wh w results w' h :
  query text n wh w = (Done results, w') -> In h results ->
  exists m, In m (collection w) /\ matches wh m = true /\
            hit_document h = stored_document m /\
            hit_user_id h = stored_user_id m.
Proof.
  rewrite collection_query_run.
  destruct embed_reply as [probe|]; [|discriminate].
  intros [= <- <-] Hh.
  apply firstn_incl, sorted_In, in_map_iff in Hh.
  destruct Hh as (m & <- & Hm). apply filter_In in Hm.
  exists m. tauto.
Qed.

Lemma collection_query_length text n wh w results w' :
  query text n wh w = (Done results, w') -> List.length results <= n.
Proof.
  rewrite collection_query_run.
  destruct embed_reply; [|discriminate].
  intros [= <- <-]. apply firstn_le_length.
Qed.

(** *** Keep-best aggregation *)

Lemma aggregate_snoc results h :
  aggregate lt (results ++ [h]) = keep_best lt (aggregate lt results) h.
Proof. unfold aggregate. now rewrite fold_left_app. Qed.

Lemma keep_best_nodup (d : dict Dist) h :
  NoDup (map fst d) -> NoDup (map fst (keep_best lt d h)).
Proof.
  intros ND. unfold keep_best.
  destruct dict_get; [destruct lt|]; auto using dict_set_nodup.
Qed.

Lemma aggregate_nodup results : NoDup (map fst (aggregate lt results)).
Proof.
  induction results as [|h results IH] using rev_ind; [constructor|].
  rewrite aggregate_snoc. now apply keep_best_nodup.
Qed.

(** A user has an entry exactly when some match belongs to them. *)
Lemma aggregate_get_None results u :
  dict_get u (aggregate lt results) = None <->
  forall h, In h results -> hit_user_id h <> u.
Proof.
  induction results as [|h results IH] using rev_ind.
  - simpl. tauto.
  - rewrite aggregate_snoc. unfold keep_best.
    assert (S : forall v,
               dict_get u (dict_set (hit_user_id h) v (aggregate lt results))
               = None <->
               hit_user_id h <> u /\ dict_get u (aggregate lt results) = None).
    { intros v. destruct (String.eqb_spec u (hit_user_id h)) as [->|N].
      - rewrite dict_get_set_same. split; [discriminate|tauto].
      - rewrite dict_get_set_other by assumption.
        split; [split; congruence|tauto]. }
    assert (G : (forall h', In h' (results ++ [h]) -> hit_user_id h' <> u) <->
                hit_user_id h <> u /\
                forall h', In h' results -> hit_user_id h' <> u).
    { split.
      - intros H. split; [|intros h' I]; apply H, in_or_app;
          [right; now left|now left].
      - intros [Hh H] h' I. apply in_app_or in I as [I|[<-|[]]]; auto. }
    rewrite G, <- IH.
    destruct (dict_get (hit_user_id h) (aggregate lt results)) eqn:E;
      [destruct lt|]; rewrite ?S; try tauto.
    split; [|tauto]. intros Hu. split; [|assumption]. congruence.
Qed.

Lemma min_distance_snoc_other results h u m :
  hit_user_id h <> u ->
  min_distance lt results u m -> min_distance lt (results ++ [h]) u m.
Proof.
  intros N [(h0 & I & Hu & Hm) Hmin]. split.
  - exists h0. split; [apply in_or_app; now left|tauto].
  - intros h' I' Hu'. apply in_app_or in I' as [I'|[<-|[]]]; auto.
    contradiction.
Qed.

(** The value kept for a user is a smallest distance they appear with. *)
Lemma aggregate_min results u m :
  StrictWeakOrder lt ->
  dict_get u (aggregate lt results) = Some m -> min_distance lt results u m.
Proof.
  intros order. revert m.
  induction results as [|h results IH] using rev_ind; [discriminate|].
  intros m. rewrite aggregate_snoc. unfold keep_best.
  assert (Hh : In h (results ++ [h])) by (apply in_or_app; right; now left).
  destruct (String.eqb_spec u (hit_user_id h)) as [->|N].
  - destruct (dict_get (hit_user_id h) (aggregate lt results)) as [best|] eqn:E.
    + destruct (IH best eq_refl) as [(h0 & I0 & Hu0 & Hm0) Hmin].
      destruct (lt (hit_distance h) best) eqn:L.
      * rewrite dict_get_set_same. intros [= <-]. split; [now exists h|].
        intros h' I' Hu'. apply in_app_or in I' as [I'|[<-|[]]].
        -- specialize (Hmin h' I' Hu').
           destruct (lt (hit_distance h') (hit_distance h)) eqn:L';
             [|reflexivity].
           now rewrite <- Hmin, <- (lt_trans lt order _ _ _ L' L).
        -- apply (lt_irrefl lt order).
      * rewrite E. intros [= <-]. split.
        -- exists h0. split; [apply in_or_app; now left|tauto].
        -- intros h' I' Hu'. apply in_app_or in I' as [I'|[<-|[]]]; auto.
    + rewrite dict_get_set_same. intros [= <-]. split; [now exists h|].
      intros h' I' Hu'. apply in_app_or in I' as [I'|[<-|[]]].
      * exfalso. now apply (proj1 (aggregate_get_None results _) E h').
      * apply (lt_irrefl lt order).
  - intros G. apply min_distance_snoc_other; [congruence|]. apply IH.
    destruct (dict_get (hit_user_id h) (aggregate lt results));
      [destruct lt|]; rewrite ?dict_get_set_other in G by assumption;
      assumption.
Qed.

(** *** [get_most_similar] *)

Lemma get_most_similar_over_empty
      (q : string -> nat -> Where -> M Embedding (list (Hit Dist))) uid w :
  own uid w = [] ->
  get_most_similar_over lt q uid w =
  (Done (MessageReply "No messages found for this user"), w).
Proof.
  intros E. unfold get_most_similar_over.
  rewrite (bind_done _ _ _ _ _ (collection_get_run _ _)). now rewrite E.
Qed.

(** With messages of their own, the handler's answer is read off what the
    index answers to the excluding query. *)
Lemma get_most_similar_over_run
      (q : string -> nat -> Where -> M Embedding (list (Hit Dist))) uid w :
  own uid w <> [] ->
  get_most_similar_over lt q uid w =
  match q (combined_query (own uid w)) 50 (WhereNe uid) w with
  | (Done results, w') =>
      match sorted lt snd (items (aggregate lt results)) with
      | (most_similar_user, _) :: _ =>
          (Done (MostSimilarReply most_similar_user), w')
      | [] => (Done (MessageReply "No similar users found"), w')
      end
  | (Raised e, w') => (Raised e, w')
  end.
Proof.
  intros N. unfold get_most_similar_over.
  rewrite (bind_done _ _ _ _ _ (collection_get_run _ _)).
  destruct (own uid w) as [|m ms] eqn:E; [contradiction|].
  unfold bind at 1.
  destruct (q _ 50 _ w) as [[results|e] w']; [|reflexivity].
  now destruct (sorted lt snd _) as [|[u d] t].
Qed.

Lemma get_most_similar_empty uid w :
  own uid w = [] ->
  get_most_similar distance_between lt env uid w =
  (Done (MessageReply "No messages found for this user"), w).
Proof. apply get_most_similar_over_empty. Qed.

(** With messages of their own, the handler's answer is read off the
    result of the excluding query. *)
Lemma get_most_similar_run uid w :
  own uid w <> [] ->
  get_most_similar distance_between lt env uid w =
  match query (combined_query (own uid w)) 50 (WhereNe uid) w with
  | (Done results, w') =>
      match sorted lt snd (items (aggregate lt results)) with
      | (most_similar_user, _) :: _ =>
          (Done (MostSimilarReply most_similar_user), w')
      | [] => (Done (MessageReply "No similar users found"), w')
      end
  | (Raised e, w') => (Raised e, w')
  end.
Proof. apply get_most_similar_over_run. Qed.

Lemma own_nonempty uid w :
  (exists m, In m (collection w) /\ stored_user_id m = uid) ->
  own uid w <> [].
Proof.
  intros (m & I & U) E.
  assert (H : In m (own uid w)).
  { apply filter_In. split; [assumption|]. simpl. now apply String.eqb_eq. }
  now rewrite E in H.
Qed.

(** C1. For a user with at least one stored message whose excluding
    query returns at least one match, whatever the index answers and in
    whatever order (the collection of this service is one such index):
    the candidates are exactly the distinct users of the matches, each
    kept with a smallest distance it appears with; the candidates are
    sorted ascending by that distance; and the handler returns the first
    one, whose kept distance no other candidate's undercuts. *)
Theorem get_most_similar_closest
        (q : string -> nat -> Where -> M Embedding (list (Hit Dist)))
        w uid results w' :
  StrictWeakOrder lt ->
  (exists m, In m (collection w) /\ stored_user_id m = uid) ->
  q (combined_query (own uid w)) 50 (WhereNe uid) w = (Done results, w') ->
  results <> [] ->
  let similar_users := aggregate lt results in
  let sorted_similar_users := sorted lt snd (items similar_users) in
  NoDup (map fst similar_users) /\
  (forall u, (exists h, In h results /\ hit_user_id h = u) <->
             (exists m, In (u, m) similar_users)) /\
  (forall u m, In (u, m) similar_users -> min_distance lt results u m) /\
  Permutation similar_users sorted_similar_users /\
  StronglySorted (ascending lt snd) sorted_similar_users /\
  exists best m,
    hd_error sorted_similar_users = Some (best, m) /\
    get_most_similar_over lt q uid w = (Done (MostSimilarReply best), w') /\
    (q = query ->
     get_most_similar distance_between lt env uid w =
       (Done (MostSimilarReply best), w')) /\
    min_distance lt results best m /\
    forall u m', min_distance lt results u m' -> lt m' m = false.
Proof.
  intros order Hown Hq Hne agg srt.
  pose proof (aggregate_nodup results) as ND. fold agg in ND.
  assert (Hmin : forall u m, In (u, m) agg -> min_distance lt results u m).
  { intros u m I. apply aggregate_min; [assumption|].
    now apply In_dict_get. }
  assert (Hkeys : forall u, (exists h, In h results /\ hit_user_id h = u) <->
                            (exists m, In (u, m) agg)).
  { intros u. split.
    - intros (h & I & U).
      destruct (dict_get u agg) as [m|] eqn:G.
      + exists m. now apply dict_get_In.
      + exfalso. now apply (proj1 (aggregate_get_None results u) G h).
    - intros (m & I). destruct (Hmin u m I) as [(h & ? & ? & _) _].
      now exists h. }
  split; [exact ND|]. split; [exact Hkeys|]. split; [exact Hmin|].
  split; [apply sorted_perm|]. split; [now apply sorted_ascending|].
  destruct srt as [|[best m] t] eqn:S.
  - exfalso. apply sorted_nil in S.
    destruct results as [|h results']; [now apply Hne|].
    destruct (proj1 (Hkeys (hit_user_id h))) as [m I];
      [exists h; split; [now left|reflexivity]|].
    unfold items in S. now rewrite S in I.
  - exists best, m. split; [reflexivity|].
    assert (Ib : In (best, m) agg).
    { apply (sorted_In lt snd). fold (items agg). fold srt.
      rewrite S. now left. }
    assert (R : get_most_similar_over lt q uid w =
                (Done (MostSimilarReply best), w')).
    { rewrite get_most_similar_over_run by now apply own_nonempty.
      rewrite Hq. fold agg. fold srt. now rewrite S. }
    split; [exact R|].
    split; [intros E; rewrite E in R; exact R|]. split.
    + now apply Hmin.
    + intros u m' [(h & I & U & D) _].
      destruct (proj1 (Hkeys u)) as [mu Iu]; [now exists h|].
      pose proof (sorted_head_min lt snd order _ _ _ S (u, mu) Iu) as Hhead.
      unfold ascending in Hhead. simpl in Hhead.
      destruct (Hmin u mu Iu) as [_ Hmu].
      specialize (Hmu h I U). rewrite D in Hmu.
      destruct (lt m' m) eqn:L; [|reflexivity].
      destruct (lt_cotrans lt order _ mu _ L); congruence.
Qed.

Lemma query_excludes uid text n w results w' h :
  query text n (WhereNe uid) w = (Done results, w') ->
  In h results -> hit_user_id h <> uid.
Proof.
  intros Hq I.
  destruct (collection_query_hits _ _ _ _ _ _ _ Hq I)
    as (m & _ & Hm & _ & ->).
  simpl in Hm. apply negb_true_iff in Hm. now apply String.eqb_neq.
Qed.

(** C2. A [most_similar_user] that is returned is never the querying
    user: whatever the collection holds, the excluding query returns no
    match of the querying user, so the aggregated candidates have no
    entry for them. *)
Theorem get_most_similar_excludes_self w uid u w' :
  get_most_similar distance_between lt env uid w =
    (Done (MostSimilarReply u), w') ->
  u <> uid /\
  forall text results w1,
    query text 50 (WhereNe uid) w = (Done results, w1) ->
    (forall h, In h results -> hit_user_id h <> uid) /\
    dict_get uid (aggregate lt results) = None.
Proof.
  intros H. split.
  - destruct (own uid w) as [|m0 ms] eqn:E.
    + rewrite get_most_similar_empty in H by assumption. discriminate.
    + rewrite get_most_similar_run in H by (rewrite E; discriminate).
      destruct (query _ 50 _ w) as [[results|e] w1] eqn:Hq; [|discriminate].
      destruct (sorted lt snd (items (aggregate lt results)))
        as [|[best d] t] eqn:S; [discriminate|].
      injection H as <- <-.
      assert (I : In (best, d) (aggregate lt results)).
      { apply (sorted_In lt snd). unfold items in S. rewrite S. now left. }
      intros ->.
      apply (in_map fst) in I. simpl in I.
      apply (proj1 (dict_get_None uid (aggregate lt results))); [|exact I].
      apply aggregate_get_None. intros h. exact (query_excludes _ _ _ _ _ _ h Hq).
  - intros text results w1 Hq.
    assert (Q : forall h, In h results -> hit_user_id h <> uid)
      by (intros h; exact (query_excludes _ _ _ _ _ _ h Hq)).
    split; [exact Q|]. now apply aggregate_get_None.
Qed.

(** C4. A user with no stored message gets the "no messages" object:
    the handler answers, nothing is raised, and the world is untouched,
    so no provider call (hence no similarity query) was issued. *)
Theorem get_most_similar_no_messages w uid :
  (forall m, In m (collection w) -> stored_user_id m <> uid) ->
  get_most_similar distance_between lt env uid w =
  (Done (MessageReply "No messages found for this user"), w).
Proof.
  intros H. apply get_most_similar_empty.
  destruct (own uid w) as [|m ms] eqn:E; [reflexivity|].
  assert (I : In m (own uid w)) by (rewrite E; now left).
  apply filter_In in I as [I U]. simpl in U. apply String.eqb_eq in U.
  now destruct (H m I).
Qed.

(** C5. A user who has stored messages while nobody else has any: the
    excluding query, once the probe is embedded, yields no match, the
    candidates are empty and the answer is "No similar users found".
    The only other way out is the embedding provider raising on the
    probe, which propagates. *)
Theorem get_most_similar_alone w uid :
  (exists m, In m (collection w) /\ stored_user_id m = uid) ->
  (forall m, In m (collection w) -> stored_user_id m = uid) ->
  let probe := combined_query (own uid w) in
  let w' := log (CallEmbed probe) w in
  (forall e, embed_reply env (List.length (calls w)) probe = Some e ->
     query probe 50 (WhereNe uid) w = (Done [], w') /\
     aggregate lt [] = [] /\
     get_most_similar distance_between lt env uid w =
       (Done (MessageReply "No similar users found"), w')) /\
  (embed_reply env (List.length (calls w)) probe = None ->
     get_most_similar distance_between lt env uid w =
       (Raised EmbeddingError, w')).
Proof.
  intros Hown Hall probe w'.
  assert (F : filter (matches (WhereNe uid)) (collection w) = []).
  { destruct (filter (matches (WhereNe uid)) (collection w))
      as [|m ms] eqn:E; [reflexivity|].
    assert (I : In m (filter (matches (WhereNe uid)) (collection w)))
      by (rewrite E; now left).
    apply filter_In in I as [I U]. simpl in U.
    apply negb_true_iff, String.eqb_neq in U. now destruct (U (Hall m I)). }
  split.
  - intros e He.
    assert (Q : query probe 50 (WhereNe uid) w = (Done [], w')).
    { rewrite collection_query_run, He, F. reflexivity. }
    split; [exact Q|]. split; [reflexivity|].
    rewrite get_most_similar_run by now apply own_nonempty.
    fold probe. now rewrite Q.
  - intros He.
    rewrite get_most_similar_run by now apply own_nonempty.
    fold probe. now rewrite collection_query_run, He.
Qed.

Lemma get_most_similar_collection uid w :
  collection (snd (get_most_similar distance_between lt env uid w)) =
  collection w.
Proof.
  destruct (own uid w) as [|m ms] eqn:E.
  - now rewrite get_most_similar_empty.
  - rewrite get_most_similar_run by (rewrite E; discriminate).
    pose proof (collection_query_world
                  (combined_query (own uid w)) 50 (WhereNe uid) w) as W.
    destruct (query _ 50 _ w) as [[results|e] w1]; simpl in W; subst w1;
      [|reflexivity].
    now destruct (sorted lt snd _) as [|[u d] t].
Qed.

Lemma get_user_messages_run uid w :
  get_user_messages uid w =
  (Done (UserMessagesReply uid (map stored_document (own uid w))), w).
Proof. reflexivity. Qed.

(** C10. Neither GET endpoint touches the stored messages: after the
    request, answered or raised, the collection is the one before. *)
Theorem get_endpoints_read_only w uid :
  collection (snd (get_most_similar distance_between lt env uid w)) =
    collection w /\
  collection (snd (get_user_messages uid w)) = collection w.
Proof.
  split; [apply get_most_similar_collection|].
  now rewrite get_user_messages_run.
Qed.

(** *** [chat] and [process_chat] *)

Lemma chat_run uid msg w :
  chat distance_between lt env uid msg w =
  match query msg 10 (WhereEq uid) w with
  | (Done results, w1) =>
      let messages := build_messages (map hit_document results) msg in
      match complete_reply env (List.length (calls w1)) messages with
      | Some llm => (Done llm, log (CallComplete messages) w1)
      | None => (Raised CompletionError, log (CallComplete messages) w1)
      end
  | (Raised e, w1) => (Raised e, w1)
  end.
Proof.
  unfold chat. unfold bind at 1.
  destruct (query msg 10 _ w) as [[results|e] w1]; [|reflexivity].
  unfold bind, completions_create, ret.
  now destruct complete_reply.
Qed.

Lemma collection_add_run doc id uid w :
  collection_add env doc id uid w =
  match embed_reply env (List.length (calls w)) doc with
  | Some e =>
      (Done tt,
       mkWorld (if has_id id (collection w) then collection w
                else collection w ++ [mkStored id doc uid e])
               (calls w ++ [CallEmbed doc]))
  | None => (Raised EmbeddingError, log (CallEmbed doc) w)
  end.
Proof.
  unfold collection_add, bind, cohere_ef, get_collection.
  destruct embed_reply; [|reflexivity]. simpl.
  now destruct has_id.
Qed.

Lemma process_chat_run req w :
  process_chat distance_between lt env req w =
  match chat distance_between lt env (user_id req) (message req) w with
  | (Done llm, w2) =>
      match collection_add env (message req)
              (message_id (user_id req) (List.length (collection w2)))
              (user_id req) w2 with
      | (Done _, w3) =>
          (Done (ChatReply (user_id req) (message req) llm), w3)
      | (Raised e, w3) => (Raised e, w3)
      end
  | (Raised e, w2) => (Raised e, w2)
  end.
Proof.
  unfold process_chat. unfold bind at 1.
  destruct chat as [[llm|e] w2]; [|reflexivity].
  rewrite (bind_done _ _ _ _ _ (collection_count_run _)).
  unfold bind, ret. now destruct collection_add as [[[]|e] w3].
Qed.

Lemma chat_collection uid msg w :
  collection (snd (chat distance_between lt env uid msg w)) = collection w.
Proof.
  rewrite chat_run.
  pose proof (collection_query_world msg 10 (WhereEq uid) w) as W.
  destruct (query msg 10 _ w) as [[results|e] w1]; simpl in W; subst w1;
    [|reflexivity].
  simpl. now destruct complete_reply.
Qed.

(** C3. When the context query for [(uid, msg)] returns, the completion
    endpoint is called with: the system instruction, then one user turn
    per retrieved message in the order of the query result (at most 10,
    all of them stored messages of [uid]), then the new message; that
    is between 2 and 12 turns, the last of which is the new message. *)
Theorem chat_messages w uid msg results w1 :
  query msg 10 (WhereEq uid) w = (Done results, w1) ->
  let messages :=
    mkTurn "system" MODEL_PROMPT
      :: map (fun h => mkTurn "user" (hit_document h)) results
      ++ [mkTurn "user" msg] in
  List.length results <= 10 /\
  (forall h, In h results ->
     exists m, In m (collection w) /\ stored_user_id m = uid /\
               stored_document m = hit_document h) /\
  calls (snd (chat distance_between lt env uid msg w)) =
    calls w ++ [CallEmbed msg; CallComplete messages] /\
  2 <= List.length messages <= 12 /\
  hd_error messages = Some (mkTurn "system" MODEL_PROMPT) /\
  last messages (mkTurn "system" MODEL_PROMPT) = mkTurn "user" msg.
Proof.
  intros Hq messages.
  pose proof (collection_query_length _ _ _ _ _ _ Hq) as Hlen.
  assert (B : build_messages (map hit_document results) msg = messages).
  { unfold build_messages, messages, user_turn. simpl. now rewrite map_map. }
  split; [exact Hlen|]. split; [|split; [|split; [|split]]].
  - intros h I.
    destruct (collection_query_hits _ _ _ _ _ _ _ Hq I)
      as (m & Hm & Hu & Hd & _).
    simpl in Hu. apply String.eqb_eq in Hu. exists m. now rewrite Hd.
  - rewrite chat_run, Hq, B.
    pose proof (collection_query_world msg 10 (WhereEq uid) w) as W.
    rewrite Hq in W. simpl in W. subst w1.
    cbv zeta. destruct (complete_reply env _ _); simpl;
      now rewrite <- app_assoc.
  - unfold messages. simpl. rewrite length_app, length_map. simpl. lia.
  - reflexivity.
  - unfold messages. rewrite app_comm_cons. apply last_last.
Qed.

(** C6. A [POST /chat] that completes answers with the three fields
    [user_id], [user_message], [llm_response]; the first two are the
    request's own, unchanged, and the third is what the completion
    endpoint replied. *)
Theorem process_chat_response req w resp w' :
  process_chat distance_between lt env req w = (Done resp, w') ->
  exists llm w2,
    chat distance_between lt env (user_id req) (message req) w =
      (Done llm, w2) /\
    resp = ChatReply (user_id req) (message req) llm.
Proof.
  rewrite process_chat_run.
  destruct chat as [[llm|e] w2]; [|discriminate].
  destruct collection_add as [[u|e] w3]; [|discriminate].
  intros [= <- <-]. now exists llm, w2.
Qed.

(** What [process_chat] can do to the collection: nothing, or append the
    user's message under the id minted from the current size. *)
Lemma process_chat_collection req w :
  let id := message_id (user_id req) (List.length (collection w)) in
  collection (snd (process_chat distance_between lt env req w)) =
    collection w \/
  has_id id (collection w) = false /\
  exists resp e,
    fst (process_chat distance_between lt env req w) = Done resp /\
    collection (snd (process_chat distance_between lt env req w)) =
      collection w ++ [mkStored id (message req) (user_id req) e].
Proof.
  intros id. rewrite process_chat_run.
  pose proof (chat_collection (user_id req) (message req) w) as C.
  destruct chat as [[llm|e] w2]; simpl in C; [|now left].
  rewrite collection_add_run, C. fold id.
  destruct embed_reply as [e|]; simpl; [|now left].
  destruct (has_id id (collection w)) eqn:H; [now left|].
  right. split; [reflexivity|]. now exists (ChatReply (user_id req) (message req) llm), e.
Qed.

(** C9. [POST /chat] and failures: if the context query raises, or the
    completion call raises, the request raises; a request that raises,
    for whatever reason, leaves the collection as it was; and the
    collection changes only in a request whose completion call had
    answered. *)
Theorem process_chat_atomic req w out w' :
  process_chat distance_between lt env req w = (out, w') ->
  let uid := user_id req in
  let msg := message req in
  (forall e w1,
      query msg 10 (WhereEq uid) w = (Raised e, w1) -> out = Raised e) /\
  (forall results w1,
      query msg 10 (WhereEq uid) w = (Done results, w1) ->
      complete_reply env (List.length (calls w1))
                     (build_messages (map hit_document results) msg) = None ->
      out = Raised CompletionError) /\
  (forall e, out = Raised e -> collection w' = collection w) /\
  (collection w' <> collection w ->
   exists results w1 llm,
     query msg 10 (WhereEq uid) w = (Done results, w1) /\
     complete_reply env (List.length (calls w1))
                    (build_messages (map hit_document results) msg) = Some llm /\
     out = Done (ChatReply uid msg llm)).
Proof.
  intros H uid msg.
  pose proof (process_chat_collection req w) as C. rewrite H in C.
  simpl in C.
  rewrite process_chat_run, chat_run in H. fold uid msg in H.
  split; [|split; [|split]].
  - intros e w1 Hq. rewrite Hq in H. congruence.
  - intros results w1 Hq Hc. rewrite Hq in H. simpl in H.
    rewrite Hc in H. congruence.
  - intros e ->. destruct C as [C|(_ & resp & e' & D & _)];
      [assumption|discriminate].
  - intros N.
    destruct (query msg 10 _ w) as [[results|e] w1]; simpl in H.
    + destruct (complete_reply env _ _) as [llm|] eqn:Hc.
      * exists results, w1, llm.
        split; [reflexivity|]. split; [exact Hc|].
        destruct collection_add as [[u|e] w3] eqn:A.
        -- congruence.
        -- destruct C as [C|(_ & resp & e' & D & _)];
             [contradiction|]. injection H as <- <-. discriminate.
      * injection H as <- <-. now destruct C as [C|(_ & ? & ? & ? & _)].
    + injection H as <- <-. now destruct C as [C|(_ & ? & ? & ? & _)].
Qed.

(** *** Message ids *)

(** An id determines the user and the count it was minted from. *)
Lemma message_id_inj u n u' n' :
  message_id u n = message_id u' n' -> u = u' /\ n = n'.
Proof.
  unfold message_id. intros E. simpl in E. injection E as E.
  apply cut_at_last_underscore in E as [-> E];
    auto using str_of_int_no_underscore.
  now apply str_of_int_inj in E.
Qed.

Lemma ids_by_position_fresh c u :
  ids_by_position c -> has_id (message_id u (List.length c)) c = false.
Proof.
  intros P. unfold has_id.
  destruct (existsb _ c) eqn:E; [|reflexivity].
  apply existsb_exists in E as (m & I & E). apply String.eqb_eq in E.
  apply In_nth_error in I as [i Hi].
  assert (L : i < List.length c) by (apply nth_error_Some; congruence).
  rewrite (P i m Hi) in E. apply message_id_inj in E as [_ E]. lia.
Qed.

Lemma ids_by_position_snoc c u doc (e : Embedding) :
  ids_by_position c ->
  ids_by_position (c ++ [mkStored (message_id u (List.length c)) doc u e]).
Proof.
  intros P i m H.
  destruct (Nat.lt_ge_cases i (List.length c)) as [L|L].
  - rewrite nth_error_app1 in H by assumption. now apply P.
  - rewrite nth_error_app2 in H by assumption.
    destruct (i - List.length c) as [|k] eqn:K; simpl in H.
    + injection H as <-. simpl. f_equal. lia.
    + now destruct k.
Qed.

Lemma ids_by_position_nodup c :
  ids_by_position c -> NoDup (map stored_id c).
Proof.
  intros P. apply NoDup_nth_error. intros i j L E.
  rewrite length_map in L. rewrite !nth_error_map in E.
  destruct (nth_error c i) as [m|] eqn:Hi;
    [|apply nth_error_None in Hi; lia].
  destruct (nth_error c j) as [m'|] eqn:Hj; [|discriminate].
  injection E as E. rewrite (P i m Hi), (P j m' Hj) in E.
  now apply message_id_inj in E.
Qed.

Lemma after_ids r w :
  ids_by_position (collection w) ->
  ids_by_position
    (collection (after distance_between lt env r w)).
Proof.
  intros P. unfold after. destruct r as [|req|u|u]; simpl.
  - exact P.
  - destruct (process_chat_collection req w)
      as [->|(_ & resp & e & _ & ->)]; [exact P|].
    now apply ids_by_position_snoc.
  - now rewrite get_most_similar_collection.
  - exact P.
Qed.

Lemma serve_ids rs :
  forall w, ids_by_position (collection w) ->
            ids_by_position
              (collection (serve distance_between lt env rs w)).
Proof.
  induction rs as [|r rs IH]; intros w P; simpl; [exact P|].
  apply IH. now apply after_ids.
Qed.

Lemma startup_ids : ids_by_position (collection (@startup Embedding)).
Proof. intros [|i] m H; discriminate. Qed.

(** C7. In a service that has handled any requests since start-up, a
    [POST /chat] that completes adds exactly one message: the
    collection is the one before followed by the user's message, whose
    id is ["user_message_{user_id}_{count}"] with [count] the size of
    the whole collection just before. *)
Theorem process_chat_persists rs req resp w' :
  let w := serve distance_between lt env rs startup in
  process_chat distance_between lt env req w = (Done resp, w') ->
  exists e,
    collection w' =
    collection w ++
      [mkStored ("user_message_" ++ user_id req ++ "_"
                   ++ str_of_int (List.length (collection w)))%string
                (message req) (user_id req) e].
Proof.
  intros w H.
  assert (P : ids_by_position (collection w))
    by apply serve_ids, startup_ids.
  pose proof (ids_by_position_fresh _ (user_id req) P) as F.
  rewrite process_chat_run in H.
  pose proof (chat_collection (user_id req) (message req) w) as C.
  destruct chat as [[llm|e] w2]; simpl in C; [|discriminate].
  rewrite collection_add_run, C, F in H.
  destruct embed_reply as [e|]; [|discriminate].
  injection H as _ <-. now exists e.
Qed.

(** C8. Whatever requests are handled one after another since start-up,
    the message at position [i] carries the id minted from count [i],
    the id the next insertion would mint is not in the collection yet,
    and no two stored messages share an id. *)
Theorem message_ids_unique rs :
  let c := collection (serve distance_between lt env rs startup) in
  ids_by_position c /\
  (forall u, has_id (message_id u (List.length c)) c = false) /\
  (forall i j m m', nth_error c i = Some m -> nth_error c j = Some m' ->
                    stored_id m = stored_id m' -> i = j) /\
  NoDup (map stored_id c).
Proof.
  intros c.
  assert (P : ids_by_position c) by apply serve_ids, startup_ids.
  split; [exact P|].
  split; [intros u; now apply ids_by_position_fresh|].
  split; [|now apply ids_by_position_nodup].
  intros i j m m' Hi Hj E.
  rewrite (P i m Hi), (P j m' Hj) in E.
  now apply message_id_inj in E.
Qed.

(** *** More on [get_most_similar] *)

(** The loop only ever appends keys: candidates stay in the order in
    which they were first met. *)
Lemma keep_best_keys (sim : dict Dist) h :
  exists extra, map fst (keep_best lt sim h) = map fst sim ++ extra.
Proof.
  unfold keep_best.
  destruct (dict_get (hit_user_id h) sim) as [best|] eqn:E.
  - exists []. rewrite app_nil_r.
    destruct (lt (hit_distance h) best); [|reflexivity].
    now rewrite dict_set_keys, E.
  - exists [hit_user_id h]. now rewrite dict_set_keys, E.
Qed.

Lemma fold_keep_best_keys results :
  forall sim : dict Dist,
    exists extra,
      map fst (fold_left (keep_best lt) results sim) = map fst sim ++ extra.
Proof.
  induction results as [|h results IH]; intros sim; simpl.
  - exists []. now rewrite app_nil_r.
  - destruct (keep_best_keys sim h) as [e1 E1].
    destruct (IH (keep_best lt sim h)) as [e2 E2].
    exists (e1 ++ e2). now rewrite E2, E1, app_assoc.
Qed.

Lemma aggregate_app_keys r1 r2 :
  exists extra,
    map fst (aggregate lt (r1 ++ r2)) = map fst (aggregate lt r1) ++ extra.
Proof. unfold aggregate. rewrite fold_left_app. apply fold_keep_best_keys. Qed.

Lemma aggregate_head_key h results :
  exists m sim, aggregate lt (h :: results) = (hit_user_id h, m) :: sim.
Proof.
  destruct (aggregate_app_keys [h] results) as [extra E].
  change ([h] ++ results) with (h :: results) in E.
  destruct (aggregate lt (h :: results)) as [|[k v] sim];
    [discriminate|].
  injection E as -> _. now exists v, sim.
Qed.

Lemma aggregate_has_key results h :
  In h results -> exists m, In (hit_user_id h, m) (aggregate lt results).
Proof.
  intros I.
  destruct (dict_get (hit_user_id h) (aggregate lt results)) as [m|] eqn:G.
  - exists m. now apply dict_get_In.
  - exfalso. now apply (proj1 (aggregate_get_None results _) G h).
Qed.

Lemma aggregate_key_hit results u m :
  In (u, m) (aggregate lt results) ->
  exists h, In h results /\ hit_user_id h = u.
Proof.
  intros I.
  destruct (List.Exists_dec (fun x => hit_user_id x = u) results)
    as [Ex|Nx]; [intros x; apply string_dec| |].
  - now apply Exists_exists in Ex.
  - exfalso.
    assert (G : dict_get u (aggregate lt results) = None).
    { apply aggregate_get_None. intros h' I' E.
      apply Nx, Exists_exists. now exists h'. }
    apply dict_get_None in G. apply G. now apply (in_map fst) in I.
Qed.

Lemma aggregate_In_min results u m :
  StrictWeakOrder lt ->
  In (u, m) (aggregate lt results) -> min_distance lt results u m.
Proof.
  intros order I. apply aggregate_min; [assumption|].
  apply In_dict_get; [apply aggregate_nodup|assumption].
Qed.

Lemma prefix_before {A} (K : list A) :
  forall E X B b,
    K ++ E = X ++ b :: B -> ~ In b K -> exists E', X = K ++ E'.
Proof.
  induction K as [|a K IH]; intros E X B b H N; simpl in *.
  - now exists X.
  - destruct X as [|x X]; simpl in H; injection H as -> H.
    + exfalso. apply N. now left.
    + destruct (IH E X B b H) as [E' ->]; [tauto|]. now exists E'.
Qed.

Lemma query_ascending text n wh w results w' :
  StrictWeakOrder lt ->
  query text n wh w = (Done results, w') ->
  StronglySorted (ascending lt hit_distance) results.
Proof.
  intros order. rewrite collection_query_run.
  destruct embed_reply; [|discriminate]. intros [= <- <-].
  now apply StronglySorted_firstn, sorted_ascending.
Qed.

(** On matches that come nearest first, the first match decides. *)
Lemma first_hit_wins h results :
  StrictWeakOrder lt ->
  StronglySorted (ascending lt hit_distance) (h :: results) ->
  exists m t,
    sorted lt snd (items (aggregate lt (h :: results))) =
    (hit_user_id h, m) :: t.
Proof.
  intros order S.
  destruct (aggregate_head_key h results) as (m0 & sim & A).
  destruct (sorted lt snd (items (aggregate lt (h :: results))))
    as [|[best m] t] eqn:E.
  - apply sorted_nil in E. unfold items in E. rewrite A in E. discriminate.
  - destruct (sorted_head_first lt snd _ _ _ E) as (d1 & d2 & D & F).
    unfold items in D. destruct d1 as [|[k0 v0] d1].
    + rewrite A in D. injection D as <- <- _. now exists m0, t.
    + exfalso. rewrite A in D. injection D as <- <- D.
      specialize (F (hit_user_id h, m0) (or_introl eq_refl)). simpl in F.
      assert (I0 : In (hit_user_id h, m0) (aggregate lt (h :: results)))
        by (rewrite A; now left).
      assert (Ib : In (best, m) (aggregate lt (h :: results))).
      { apply (sorted_In lt snd). unfold items in E. rewrite E. now left. }
      destruct (aggregate_In_min _ _ _ order I0) as [_ Hmin0].
      destruct (aggregate_In_min _ _ _ order Ib) as [(hb & Hb & _ & Db) _].
      specialize (Hmin0 h (or_introl eq_refl) eq_refl).
      assert (L : lt (hit_distance hb) (hit_distance h) = false).
      { destruct Hb as [<-|Hb]; [apply (lt_irrefl lt order)|].
        inversion S as [|? ? _ Hall]; subst.
        rewrite Forall_forall in Hall. now apply Hall. }
      rewrite <- Db in F.
      destruct (lt_cotrans lt order _ (hit_distance h) _ F); congruence.
Qed.

(** X1. When the excluding query returns matches nearest first, as the
    collection does, the aggregation and the sort come down to this: the
    handler returns the user of the first match. *)
Theorem get_most_similar_first_hit w uid h results w' :
  StrictWeakOrder lt ->
  (exists m, In m (collection w) /\ stored_user_id m = uid) ->
  query (combined_query (own uid w)) 50 (WhereNe uid) w =
    (Done (h :: results), w') ->
  get_most_similar distance_between lt env uid w =
    (Done (MostSimilarReply (hit_user_id h)), w').
Proof.
  intros order Hown Hq.
  rewrite get_most_similar_run by now apply own_nonempty.
  rewrite Hq.
  destruct (first_hit_wins h results order
              (query_ascending _ _ _ _ _ _ order Hq)) as (m & t & ->).
  reflexivity.
Qed.

(** X2. The returned user owns a stored message of another user that is
    nearest to the combined text: no message of any other user, in the
    whole collection, is strictly nearer. *)
Theorem get_most_similar_nearest_message w uid u w' :
  StrictWeakOrder lt ->
  get_most_similar distance_between lt env uid w =
    (Done (MostSimilarReply u), w') ->
  exists probe m,
    embed_reply env (List.length (calls w)) (combined_query (own uid w)) =
      Some probe /\
    In m (collection w) /\ stored_user_id m = u /\
    forall m', In m' (collection w) -> stored_user_id m' <> uid ->
               lt (distance_between probe (stored_embedding m'))
                  (distance_between probe (stored_embedding m)) = false.
Proof.
  intros order H.
  assert (Hown : own uid w <> []).
  { intros E. rewrite get_most_similar_empty in H by assumption.
    discriminate. }
  rewrite get_most_similar_run in H by assumption.
  destruct (query _ 50 _ w) as [[results|e] w1] eqn:Hq; [|discriminate].
  pose proof (query_ascending _ _ _ _ _ _ order Hq) as Asc.
  rewrite collection_query_run in Hq.
  destruct embed_reply as [probe|] eqn:P; [|discriminate].
  injection Hq as Hr _.
  destruct results as [|h rest]; [discriminate|].
  destruct (first_hit_wins h rest order Asc) as (m & t & S).
  rewrite S in H. injection H as <- _.
  set (F := filter (matches (WhereNe uid)) (collection w)) in Hr.
  destruct (sorted lt hit_distance (map (hit_of distance_between probe) F))
    as [|h' S'] eqn:So; [discriminate|].
  simpl in Hr. injection Hr as -> _.
  pose proof (sorted_head_min lt hit_distance order _ _ _ So) as Min.
  assert (Ih : In h (map (hit_of distance_between probe) F)).
  { apply (sorted_In lt hit_distance). rewrite So. now left. }
  apply in_map_iff in Ih as (mh & <- & Ih).
  apply filter_In in Ih as [Ih _].
  exists probe, mh. split; [reflexivity|]. split; [exact Ih|].
  split; [reflexivity|].
  intros m' I' N.
  apply (Min (hit_of distance_between probe m')).
  apply in_map, filter_In. split; [exact I'|].
  simpl. now apply negb_true_iff, String.eqb_neq.
Qed.

(** X3. Ties and order of encounter, for any list of matches and [<] a
    strict weak order on the distances: a candidate first met before the
    returned one has a strictly larger kept distance.  So among the
    candidates that tie for the smallest kept distance, the one met first
    is returned. *)
Theorem get_most_similar_tie_break results best m t r1 h r2 mu :
  StrictWeakOrder lt ->
  sorted lt snd (items (aggregate lt results)) = (best, m) :: t ->
  results = r1 ++ h :: r2 ->
  hit_user_id h <> best ->
  (forall h', In h' r1 -> hit_user_id h' <> best) ->
  In (hit_user_id h, mu) (aggregate lt results) ->
  lt m mu = true.
Proof.
  intros _ S R Nh N1 Iu.
  destruct (sorted_head_first lt snd _ _ _ S) as (d1 & d2 & D & F).
  unfold items in D.
  assert (Nb : ~ In best (map fst (aggregate lt (r1 ++ [h])))).
  { apply dict_get_None, aggregate_get_None.
    intros h' I. apply in_app_or in I as [I|[<-|[]]]; auto. }
  destruct (aggregate_has_key (r1 ++ [h]) h) as [v Iv];
    [apply in_or_app; right; now left|].
  apply (in_map fst) in Iv. simpl in Iv.
  destruct (aggregate_app_keys (r1 ++ [h]) r2) as [extra K].
  rewrite <- app_assoc in K. simpl in K. rewrite <- R, D in K.
  rewrite map_app in K. simpl in K. symmetry in K.
  destruct (prefix_before _ _ _ _ _ K Nb) as [E' P].
  assert (I1 : In (hit_user_id h) (map fst d1))
    by (rewrite P; apply in_or_app; now left).
  apply in_map_iff in I1 as ([k v1] & Ek & I1). simpl in Ek. subst k.
  specialize (F _ I1). simpl in F.
  assert (Iv1 : In (hit_user_id h, v1) (aggregate lt results))
    by (rewrite D; apply in_or_app; now left).
  pose proof (aggregate_nodup results) as ND.
  apply (In_dict_get _ _ _ ND) in Iv1. apply (In_dict_get _ _ _ ND) in Iu.
  congruence.
Qed.

(** X4. A user with messages of their own, in a collection where somebody
    else has a message too, gets a [most_similar_user] as soon as the
    embedding provider answers: it is another user, and one who has a
    stored message. *)
Theorem get_most_similar_finds_someone w uid probe :
  (exists m, In m (collection w) /\ stored_user_id m = uid) ->
  (exists m, In m (collection w) /\ stored_user_id m <> uid) ->
  embed_reply env (List.length (calls w)) (combined_query (own uid w)) =
    Some probe ->
  exists u,
    get_most_similar distance_between lt env uid w =
      (Done (MostSimilarReply u),
       log (CallEmbed (combined_query (own uid w))) w) /\
    u <> uid /\
    exists m, In m (collection w) /\ stored_user_id m = u.
Proof.
  intros Hown (mo & Io & No) P.
  rewrite get_most_similar_run by now apply own_nonempty.
  assert (Hq : exists results,
             query (combined_query (own uid w)) 50 (WhereNe uid) w =
             (Done results, log (CallEmbed (combined_query (own uid w))) w) /\
             results <> []).
  { rewrite collection_query_run, P. eexists. split; [reflexivity|].
    intros Hr. apply (f_equal (@List.length _)) in Hr.
    rewrite length_firstn, sorted_length, length_map in Hr.
    assert (I : In mo (filter (matches (WhereNe uid)) (collection w))).
    { apply filter_In. split; [exact Io|]. simpl.
      now apply negb_true_iff, String.eqb_neq. }
    destruct (filter (matches (WhereNe uid)) (collection w));
      [contradiction|discriminate]. }
  destruct Hq as (results & Hq & Ne). rewrite Hq.
  destruct results as [|h rest]; [contradiction|].
  destruct (aggregate_head_key h rest) as (m0 & sim & A).
  destruct (sorted lt snd (items (aggregate lt (h :: rest))))
    as [|[best m] t] eqn:S.
  { apply sorted_nil in S. unfold items in S. rewrite A in S. discriminate. }
  exists best. split; [reflexivity|].
  assert (Ib : In (best, m) (aggregate lt (h :: rest))).
  { apply (sorted_In lt snd). unfold items in S. rewrite S. now left. }
  destruct (aggregate_key_hit _ _ _ Ib) as (hb & Ihb & <-).
  split; [exact (query_excludes _ _ _ _ _ _ hb Hq Ihb)|].
  destruct (collection_query_hits _ _ _ _ _ _ _ Hq Ihb)
    as (mb & Imb & _ & _ & ->).
  now exists mb.
Qed.

(** *** More on [chat] and [process_chat] *)

Lemma collection_query_length_exact text n wh w results w' :
  query text n wh w = (Done results, w') ->
  List.length results =
  Nat.min n (List.length (filter (matches wh) (collection w))).
Proof.
  rewrite collection_query_run.
  destruct embed_reply; [|discriminate]. intros [= <- <-].
  now rewrite length_firstn, sorted_length, length_map.
Qed.

(** X5. How much context [chat] sends: once the new message is embedded,
    the completion endpoint gets the system turn, one turn for each of the
    user's stored messages up to 10, and the new message; a user without
    history gets exactly the system turn and the new message. *)
Theorem chat_context_size w uid msg probe :
  embed_reply env (List.length (calls w)) msg = Some probe ->
  exists messages,
    calls (snd (chat distance_between lt env uid msg w)) =
      calls w ++ [CallEmbed msg; CallComplete messages] /\
    List.length messages = 2 + Nat.min 10 (List.length (own uid w)) /\
    (own uid w = [] ->
     messages = [mkTurn "system" MODEL_PROMPT; mkTurn "user" msg]).
Proof.
  intros P.
  destruct (query msg 10 (WhereEq uid) w) as [[results|e] w1] eqn:Hq;
    [|rewrite collection_query_run, P in Hq; discriminate].
  pose proof (collection_query_length_exact _ _ _ _ _ _ Hq) as L.
  pose proof (collection_query_world msg 10 (WhereEq uid) w) as W.
  rewrite Hq in W. simpl in W. subst w1.
  exists (build_messages (map hit_document results) msg).
  split; [|split].
  - rewrite chat_run, Hq. cbv zeta.
    destruct (complete_reply env _ _); simpl; now rewrite <- app_assoc.
  - unfold build_messages. simpl.
    rewrite length_app, !length_map, L. simpl. lia.
  - intros E. rewrite E in L. rewrite Nat.min_0_r in L.
    destruct results; [reflexivity|discriminate].
Qed.


Lemma process_chat_appends req w resp w' :
  ids_by_position (collection w) ->
  process_chat distance_between lt env req w = (Done resp, w') ->
  exists e,
    collection w' =
    collection w ++
      [mkStored (message_id (user_id req) (List.length (collection w)))
                (message req) (user_id req) e].
Proof.
  intros P H.
  destruct (process_chat_collection req w)
    as [C|(_ & r & e & _ & C)]; rewrite H in C; simpl in C; [|now exists e].
  exfalso.
  pose proof (ids_by_position_fresh _ (user_id req) P) as F.
  rewrite process_chat_run in H.
  pose proof (chat_collection (user_id req) (message req) w) as Cc.
  destruct chat as [[llm|e] w2]; simpl in Cc; [|discriminate].
  rewrite collection_add_run, Cc, F in H.
  destruct embed_reply as [e|]; [|discriminate].
  injection H as _ <-. simpl in C.
  apply (f_equal (@List.length _)) in C. rewrite length_app in C.
  simpl in C. lia.
Qed.

(** X7. Add, then read back: in a service running since start-up, after
    a [POST /chat] that completes, [GET /user_messages] answers, for the
    user of the request, with the messages it answered with before and
    the new message, and for every other user with the messages it
    answered with before; in which order is left open. *)
Theorem user_messages_after_chat rs req resp w' :
  let w := serve distance_between lt env rs startup in
  process_chat distance_between lt env req w = (Done resp, w') ->
  forall u,
  exists before after,
    get_user_messages u w = (Done (UserMessagesReply u before), w) /\
    get_user_messages u w' = (Done (UserMessagesReply u after), w') /\
    Permutation after
      (if String.eqb u (user_id req) then message req :: before else before).
Proof.
  intros w H u.
  destruct (process_chat_appends req w resp w') as [e C];
    [apply serve_ids, startup_ids|exact H|].
  exists (map stored_document (own u w)),
         (map stored_document (own u w')).
  split; [apply get_user_messages_run|].
  split; [apply get_user_messages_run|].
  rewrite C, filter_app, map_app. simpl.
  rewrite (String.eqb_sym u).
  destruct (String.eqb (user_id req) u); simpl.
  - apply Permutation_sym, Permutation_cons_append.
  - now rewrite app_nil_r.
Qed.

(** *** The collection over a run of requests *)

Lemma after_collection r w :
  collection (after distance_between lt env r w) = collection w \/
  exists req e,
    r = PostChat req /\
    collection (after distance_between lt env r w) =
    collection w ++
      [mkStored (message_id (user_id req) (List.length (collection w)))
                (message req) (user_id req) e].
Proof.
  unfold after. destruct r as [|req|u|u]; simpl.
  - now left.
  - destruct (process_chat_collection req w)
      as [C|(_ & resp & e & _ & C)]; [now left|].
    right. now exists req, e.
  - left. apply get_most_similar_collection.
  - now left.
Qed.

Lemma serve_collection rs :
  forall w,
    exists added,
      collection (serve distance_between lt env rs w) =
        collection w ++ added /\
      List.length added <= List.length (filter is_post_chat rs) /\
      forall m, In m added ->
                exists req, In (PostChat req) rs /\
                            stored_document m = message req /\
                            stored_user_id m = user_id req.
Proof.
  induction rs as [|r rs IH]; intros w; simpl.
  - exists []. rewrite app_nil_r. split; [reflexivity|].
    split; [reflexivity|]. intros m [].
  - destruct (IH (after distance_between lt env r w))
      as (added & C & L & Pv).
    destruct (after_collection r w) as [A|(req & e & -> & A)];
      rewrite A in C.
    + exists added. split; [exact C|].
      split; [destruct (is_post_chat r); simpl; lia|].
      intros m I. destruct (Pv m I) as (req & Ir & D). exists req.
      split; [now right|exact D].
    + eexists (_ :: added). rewrite <- app_assoc in C. simpl in C.
      split; [exact C|]. split; [simpl; lia|].
      intros m [<-|I].
      * exists req. split; [now left|now split].
      * destruct (Pv m I) as (req' & Ir & D). exists req'.
        split; [now right|exact D].
Qed.

(** X8. The collection only grows, and only at its end: whatever requests
    are handled, from any state, the stored messages of before are still
    there, unchanged and in place, followed by at most one new message
    per [POST /chat]. *)
Theorem serve_append_only rs w :
  exists added,
    collection (serve distance_between lt env rs w) = collection w ++ added /\
    List.length added <= List.length (filter is_post_chat rs).
Proof.
  destruct (serve_collection rs w) as (added & C & L & _).
  now exists added.
Qed.

(** X9. Every stored message is a user's message from a [POST /chat] of
    the run: its text and its owner are those of the request.  Nothing
    else, and in particular no reply of the completion endpoint, is ever
    stored. *)
Theorem stored_messages_provenance rs m :
  In m (collection (serve distance_between lt env rs startup)) ->
  exists req,
    In (PostChat req) rs /\
    stored_document m = message req /\
    stored_user_id m = user_id req.
Proof.
  destruct (serve_collection rs startup) as (added & C & _ & Pv).
  rewrite C. simpl. apply Pv.
Qed.

Lemma process_chat_completes req w :
  (forall n text, embed_reply env n text <> None) ->
  (forall n messages, complete_reply env n messages <> None) ->
  exists resp w',
    process_chat distance_between lt env req w = (Done resp, w').
Proof.
  intros He Hc.
  rewrite process_chat_run, chat_run, collection_query_run.
  destruct (embed_reply env _ _) as [probe|] eqn:P;
    [|now destruct (He _ _ P)].
  cbv zeta.
  destruct (complete_reply env _ _) as [llm|] eqn:Q;
    [|now destruct (Hc _ _ Q)].
  rewrite collection_add_run.
  match goal with
  | |- context [embed_reply env ?n ?text] =>
      destruct (embed_reply env n text) as [e|] eqn:P';
      [|now destruct (He _ _ P')]
  end.
  do 2 eexists. reflexivity.
Qed.

Lemma serve_count_from rs :
  (forall n text, embed_reply env n text <> None) ->
  (forall n messages, complete_reply env n messages <> None) ->
  forall w,
    ids_by_position (collection w) ->
    List.length (collection (serve distance_between lt env rs w)) =
    List.length (collection w) + List.length (filter is_post_chat rs).
Proof.
  intros He Hc.
  induction rs as [|r rs IH]; intros w P; simpl; [lia|].
  rewrite IH by now apply after_ids.
  destruct r as [|req|u|u]; simpl.
  - reflexivity.
  - destruct (process_chat_completes req w He Hc) as (resp & w' & H).
    destruct (process_chat_appends req w resp w' P H) as [e C].
    unfold after. simpl. rewrite H. simpl. rewrite C, length_app.
    simpl. lia.
  - unfold after. simpl. rewrite get_most_similar_collection. lia.
  - unfold after. simpl. lia.
Qed.

(** X10. While both providers answer every call, no message is lost: the
    collection of a service running since start-up holds exactly one
    message per [POST /chat] handled. *)
Theorem serve_count rs :
  (forall n text, embed_reply env n text <> None) ->
  (forall n messages, complete_reply env n messages <> None) ->
  List.length (collection (serve distance_between lt env rs startup)) =
  List.length (filter is_post_chat rs).
Proof.
  intros He Hc.
  now rewrite (serve_count_from rs He Hc startup startup_ids).
Qed.

(** X11. What [GET /getMostSimilar] asks of the providers when the user
    has messages: one embedding of the combined text and nothing else,
    never a completion.  The request raises exactly when that embedding
    raises. *)
Theorem get_most_similar_provider_use w uid :
  (exists m, In m (collection w) /\ stored_user_id m = uid) ->
  let probe := combined_query (own uid w) in
  let run := get_most_similar distance_between lt env uid w in
  calls (snd run) = calls w ++ [CallEmbed probe] /\
  (embed_reply env (List.length (calls w)) probe = None <->
   fst run = Raised EmbeddingError) /\
  (forall e, fst run = Raised e -> e = EmbeddingError).
Proof.
  intros Hown probe run. unfold run.
  rewrite get_most_similar_run by now apply own_nonempty.
  fold probe. rewrite collection_query_run.
  destruct (embed_reply env _ probe) as [e|].
  - destruct (sorted lt snd _) as [|[u d] t]; simpl;
      (split; [reflexivity|]);
      (split; [split; discriminate|discriminate]).
  - simpl. split; [reflexivity|]. split; [tauto|]. now intros e [= <-].
Qed.

(** X12. An id can be read back: it determines the user and the count it
    was minted from, also when user ids contain underscores or digits. *)
Theorem message_id_injective u n u' n' :
  message_id u n = message_id u' n' <-> u = u' /\ n = n'.
Proof.
  split; [apply message_id_inj|]. now intros [-> ->].
Qed.

End Properties.

(** ** The theorems at work on the concrete instance *)

Section Instances.
Import Py Scenario.

Local Abbreviation d := Scenario.distance_between.

Lemma nat_ltb_order : StrictWeakOrder Nat.ltb.
Proof.
  split.
  - intros a. apply Nat.ltb_irrefl.
  - intros a b c H1 H2. apply Nat.ltb_lt in H1, H2. apply Nat.ltb_lt. lia.
  - intros a b c H. apply Nat.ltb_lt in H.
    destruct (Nat.ltb_spec a b); [now left|right].
    apply Nat.ltb_lt. lia.
Qed.

(** Keep-best: a user seen at distances 3, 1 and 5 is ranked by 1. *)
Example keep_best_example :
  aggregate Nat.ltb [mkHit "a" "bob" 3; mkHit "b" "bob" 1; mkHit "c" "bob" 5]
  = [("bob", 1)].
Proof. reflexivity. Qed.

(** bob is met at 3, then at 1, then at 5, and carol at 2: bob is kept at
    1 and comes before carol. *)
Lemma get_most_similar_closest_witness :
  get_most_similar_over Nat.ltb unordered_index "alice" three_chats =
    (Done (MostSimilarReply "bob"), three_chats) /\
  aggregate Nat.ltb four_matches = [("bob", 1); ("carol", 2)] /\
  min_distance Nat.ltb four_matches "bob" 1 /\
  (forall u m', min_distance Nat.ltb four_matches u m' ->
                Nat.ltb m' 1 = false).
Proof.
  destruct (get_most_similar_closest d Nat.ltb env_up unordered_index
              three_chats "alice" four_matches three_chats)
    as (_ & _ & _ & _ & _ & best & m & H & R & _ & M & Min).
  - exact nat_ltb_order.
  - eexists. split; [left; reflexivity|reflexivity].
  - reflexivity.
  - discriminate.
  - vm_compute in H. injection H as <- <-.
    split; [exact R|]. split; [reflexivity|]. split; [exact M|exact Min].
Defined.

Lemma get_most_similar_excludes_self_witness :
  "bob" <> "alice" /\
  dict_get "alice" (aggregate Nat.ltb [mkHit "hi there" "bob" 1]) = None.
Proof.
  destruct (get_most_similar_excludes_self d Nat.ltb env_up
              three_chats "alice" "bob"
              (log (CallEmbed "hello hey") three_chats))
    as [N Q].
  - vm_compute. reflexivity.
  - split; [exact N|].
    apply (Q "hello hey" [mkHit "hi there" "bob" 1]
             (log (CallEmbed "hello hey") three_chats)).
    vm_compute. reflexivity.
Defined.

(** alice's two stored messages, nearest first, precede the new one. *)
Lemma chat_messages_witness :
  calls (snd (chat d Nat.ltb env_up "alice" "hey there" three_chats)) =
  calls three_chats ++
    [CallEmbed "hey there";
     CallComplete [mkTurn "system" MODEL_PROMPT;
                   mkTurn "user" "hello";
                   mkTurn "user" "hey";
                   mkTurn "user" "hey there"]].
Proof.
  apply (chat_messages d Nat.ltb env_up three_chats "alice" "hey there"
           [mkHit "hello" "alice" 4; mkHit "hey" "alice" 6]
           (log (CallEmbed "hey there") three_chats)).
  vm_compute. reflexivity.
Defined.

(** carol never chatted. *)
Lemma get_most_similar_no_messages_witness :
  get_most_similar d Nat.ltb env_embed_down "carol" three_chats =
  (Done (MessageReply "No messages found for this user"), three_chats).
Proof.
  apply get_most_similar_no_messages.
  intros m H. vm_compute in H.
  destruct H as [<-|[<-|[<-|[]]]]; discriminate.
Defined.

Lemma get_most_similar_alone_witness :
  get_most_similar d Nat.ltb env_up "alice" alice_only =
  (Done (MessageReply "No similar users found"),
   log (CallEmbed "hello") alice_only).
Proof.
  destruct (get_most_similar_alone d Nat.ltb env_up alice_only "alice")
    as [H _].
  - eexists. split; [left; reflexivity|reflexivity].
  - intros m I. vm_compute in I. now destruct I as [<-|[]].
  - apply (H 5). reflexivity.
Defined.

(** The scenario of the spec: user [u1] says [test] to a fresh service. *)
Lemma process_chat_response_witness :
  exists llm w2,
    chat d Nat.ltb env_up "u1" "test" startup = (Done llm, w2) /\
    ChatReply "u1" "test" "Tell me more." = ChatReply "u1" "test" llm.
Proof.
  apply (process_chat_response d Nat.ltb env_up
           (mkChatRequest "u1" "test") startup
           (ChatReply "u1" "test" "Tell me more.")
           (snd (process_chat d Nat.ltb env_up
                   (mkChatRequest "u1" "test") startup))).
  vm_compute. reflexivity.
Defined.

Lemma process_chat_atomic_witness :
  fst (process_chat d Nat.ltb env_llm_down
         (mkChatRequest "alice" "again") three_chats) =
    Raised CompletionError /\
  collection (snd (process_chat d Nat.ltb env_llm_down
                     (mkChatRequest "alice" "again") three_chats)) =
    collection three_chats.
Proof.
  destruct (process_chat_atomic d Nat.ltb env_llm_down
              (mkChatRequest "alice" "again") three_chats _ _
              (surjective_pairing _))
    as (_ & L & R & _).
  assert (E : fst (process_chat d Nat.ltb env_llm_down
                     (mkChatRequest "alice" "again") three_chats) =
              Raised CompletionError).
  { apply (L [mkHit "hello" "alice" 0; mkHit "hey" "alice" 2]
             (log (CallEmbed "again") three_chats));
      vm_compute; reflexivity. }
  split; [exact E|exact (R _ E)].
Defined.

Lemma process_chat_persists_witness :
  exists e,
    collection (snd (process_chat d Nat.ltb env_up
                       (mkChatRequest "carol" "hi all") three_chats)) =
    collection three_chats ++
      [mkStored "user_message_carol_3" "hi all" "carol" e].
Proof.
  apply (process_chat_persists d Nat.ltb env_up
           [PostChat (mkChatRequest "alice" "hello");
            PostChat (mkChatRequest "bob" "hi there");
            PostChat (mkChatRequest "alice" "hey")]
           (mkChatRequest "carol" "hi all")
           (ChatReply "carol" "hi all" "Tell me more.")).
  vm_compute. reflexivity.
Defined.

(** bob and carol tie; bob's message is met first. *)
Lemma get_most_similar_first_hit_witness :
  get_most_similar d Nat.ltb env_up "alice" tie_chats =
  (Done (MostSimilarReply "bob"), log (CallEmbed "hello") tie_chats).
Proof.
  apply (get_most_similar_first_hit d Nat.ltb env_up tie_chats "alice"
           (mkHit "abc" "bob" 2) [mkHit "abcdefg" "carol" 2]).
  - exact nat_ltb_order.
  - eexists. split; [left; reflexivity|reflexivity].
  - vm_compute. reflexivity.
Defined.

Lemma get_most_similar_nearest_message_witness :
  exists probe m,
    embed_reply env_up (List.length (calls three_chats))
      (combined_query
         (filter (matches (WhereEq "alice")) (collection three_chats))) =
      Some probe /\
    In m (collection three_chats) /\ stored_user_id m = "bob" /\
    forall m', In m' (collection three_chats) ->
               stored_user_id m' <> "alice" ->
               Nat.ltb (d probe (stored_embedding m'))
                       (d probe (stored_embedding m)) = false.
Proof.
  apply (get_most_similar_nearest_message d Nat.ltb env_up three_chats
           "alice" "bob" (log (CallEmbed "hello hey") three_chats)).
  - exact nat_ltb_order.
  - vm_compute. reflexivity.
Defined.

(** bob is met first but is farther; carol and dave tie, carol first. *)
Lemma get_most_similar_tie_break_witness :
  Nat.ltb 1 3 = true.
Proof.
  apply (get_most_similar_tie_break Nat.ltb
           [mkHit "x" "bob" 3; mkHit "y" "carol" 1; mkHit "z" "dave" 1]
           "carol" 1 [("dave", 1); ("bob", 3)]
           [] (mkHit "x" "bob" 3)
           [mkHit "y" "carol" 1; mkHit "z" "dave" 1] 3).
  - exact nat_ltb_order.
  - reflexivity.
  - reflexivity.
  - discriminate.
  - intros h' [].
  - left. reflexivity.
Defined.

Lemma get_most_similar_finds_someone_witness :
  exists u,
    get_most_similar d Nat.ltb env_up "alice" three_chats =
      (Done (MostSimilarReply u),
       log (CallEmbed
              (combined_query
                 (filter (matches (WhereEq "alice"))
                         (collection three_chats))))
           three_chats) /\
    u <> "alice" /\
    exists m, In m (collection three_chats) /\ stored_user_id m = u.
Proof.
  apply (get_most_similar_finds_someone d Nat.ltb env_up three_chats
           "alice" 9).
  - eexists. split; [left; reflexivity|reflexivity].
  - eexists. split; [right; left; reflexivity|discriminate].
  - reflexivity.
Defined.

Lemma chat_context_size_witness :
  exists messages,
    calls (snd (chat d Nat.ltb env_up "alice" "hey there" three_chats)) =
      calls three_chats ++ [CallEmbed "hey there"; CallComplete messages] /\
    List.length messages =
      2 + Nat.min 10 (List.length
                        (filter (matches (WhereEq "alice"))
                                (collection three_chats))) /\
    (filter (matches (WhereEq "alice")) (collection three_chats) = [] ->
     messages = [mkTurn "system" MODEL_PROMPT; mkTurn "user" "hey there"]).
Proof.
  apply (chat_context_size d Nat.ltb env_up three_chats "alice"
           "hey there" 9).
  reflexivity.
Defined.


Lemma user_messages_after_chat_witness :
  exists before after,
    get_user_messages "alice" three_chats =
      (Done (UserMessagesReply "alice" before), three_chats) /\
    get_user_messages "alice"
      (snd (process_chat d Nat.ltb env_up
              (mkChatRequest "alice" "bye") three_chats)) =
      (Done (UserMessagesReply "alice" after),
       snd (process_chat d Nat.ltb env_up
              (mkChatRequest "alice" "bye") three_chats)) /\
    Permutation after ("bye" :: before).
Proof.
  apply (user_messages_after_chat d Nat.ltb env_up
           [PostChat (mkChatRequest "alice" "hello");
            PostChat (mkChatRequest "bob" "hi there");
            PostChat (mkChatRequest "alice" "hey")]
           (mkChatRequest "alice" "bye")
           (ChatReply "alice" "bye" "Tell me more.")
           _ eq_refl "alice").
Defined.

Lemma stored_messages_provenance_witness :
  exists req,
    In (PostChat req)
       [PostChat (mkChatRequest "alice" "hello");
        PostChat (mkChatRequest "bob" "hi there");
        PostChat (mkChatRequest "alice" "hey")] /\
    "hi there" = message req /\ "bob" = user_id req.
Proof.
  apply (stored_messages_provenance d Nat.ltb env_up
           [PostChat (mkChatRequest "alice" "hello");
            PostChat (mkChatRequest "bob" "hi there");
            PostChat (mkChatRequest "alice" "hey")]
           (mkStored "user_message_bob_1" "hi there" "bob" 8)).
  vm_compute. right. left. reflexivity.
Defined.

Lemma serve_count_witness :
  List.length
    (collection
       (serve d Nat.ltb env_up
          [PostChat (mkChatRequest "alice" "hello");
           GetMostSimilar "alice";
           PostChat (mkChatRequest "bob" "hi there");
           GetUserMessages "bob"]
          startup)) = 2.
Proof.
  apply (serve_count d Nat.ltb env_up
           [PostChat (mkChatRequest "alice" "hello");
            GetMostSimilar "alice";
            PostChat (mkChatRequest "bob" "hi there");
            GetUserMessages "bob"]);
    discriminate.
Defined.

(** With the embedding provider down, alice's request raises after its
    one call. *)
Lemma get_most_similar_provider_use_witness :
  calls (snd (get_most_similar d Nat.ltb env_embed_down "alice" three_chats))
  = calls three_chats ++ [CallEmbed "hello hey"] /\
  fst (get_most_similar d Nat.ltb env_embed_down "alice" three_chats)
  = Raised EmbeddingError.
Proof.
  destruct (get_most_similar_provider_use d Nat.ltb env_embed_down
              three_chats "alice") as (C & R & _).
  - eexists. split; [left; reflexivity|reflexivity].
  - split; [exact C|]. apply R. reflexivity.
Defined.

End Instances.
